(** * The bounded counter of [examples/src/counter.h] and its driver
      [examples/src/counter.c]

    The C header declares an opaque [Counter] with four operations; the
    driver [main] of [counter.c] parses a count, creates one counter,
    increments it that many times and prints the result.  This file embeds
    both and proves the properties stated about them. *)

From Stdlib Require Import ZArith Lia String Ascii List.
From Stdlib Require Import DecimalString DecimalPos.
From stdpp Require Import base gmap.
From Equations Require Import Equations.
Import ListNotations.

Local Open Scope Z_scope.

(** ** Integer limits *)

(** [UINT32_MAX] of <stdint.h>. *)
Definition UINT32_MAX : Z := 4294967295.

(** [ULLONG_MAX] of <limits.h>; [unsigned long long] is taken 64 bits wide. *)
Definition ULLONG_MAX : Z := 18446744073709551615.

(** ** The counter library *)

Module CounterLib.

(** Modelled from the spec: the layout of [struct Counter], declared but not
    defined by [counter.h].  The data model gives it one attribute, the
    unsigned 32-bit [value]. *)
Record Counter : Type := mkCounter { value : Z }.

(** A [Counter *]: an address.  The live counters are the addresses bound in
    the store. *)
Abbreviation handle := positive (only parsing).

Abbreviation store := (gmap positive Counter) (only parsing).

(** Modelled from the spec: the result signals of the operations.  On the C
    side they are the [int] returned by [counter_incr] and
    [counter_destroy]. *)
Inductive signal : Type :=
| Success
| Overflow
| InvalidHandle.

(** Modelled from the spec: the [int] a signal travels as, which the header
    does not fix.  The driver tests the result of [counter_incr] against
    [0], so success is [0]; the failure signals are distinct result codes,
    here two non-zero values. *)
Definition int_of_signal (s : signal) : Z :=
  match s with
  | Success => 0
  | Overflow => -1
  | InvalidHandle => -2
  end.

(** The data-model invariant on one counter and on a store. *)
Definition counter_ok (c : Counter) : Prop := 0 <= value c <= UINT32_MAX.

Definition store_ok (σ : store) : Prop :=
  ∀ (h : handle) (c : Counter), σ !! h = Some c → counter_ok c.

(** Modelled from the spec: [counter_create], declared in [counter.h] and
    defined outside the C sources.  It allocates a counter with [value = 0]
    and always succeeds. *)
Definition counter_create (σ : store) : handle * store :=
  let h := fresh (dom σ) in
  (h, <[h := mkCounter 0]> σ).

(** Modelled from the spec: [counter_incr].  On a live counter it is a
    checked addition: at [UINT32_MAX] it leaves the counter alone and signals
    overflow, below it the value grows by one.  A handle that is not live
    breaks the precondition; the result is then undefined ([None]). *)
Definition counter_incr (h : handle) (σ : store) : option (signal * store) :=
  match σ !! h with
  | Some c =>
      if value c =? UINT32_MAX then Some (Overflow, σ)
      else Some (Success, <[h := mkCounter (value c + 1)]> σ)
  | None => None
  end.

(** Modelled from the spec: [counter_get], a read with no side effect; it
    requires a live handle. *)
Definition counter_get (h : handle) (σ : store) : option Z :=
  match σ !! h with
  | Some c => Some (value c)
  | None => None
  end.

(** Modelled from the spec: [counter_destroy].  It releases a live counter
    and signals success; on a handle that is not live (released before, or
    never created) it signals [InvalidHandle] and releases nothing. *)
Definition counter_destroy (h : handle) (σ : store) : signal * store :=
  match σ !! h with
  | Some _ => (Success, delete h σ)
  | None => (InvalidHandle, σ)
  end.

(** [k] calls of [counter_incr] in a row, with the signals they returned. *)
Fixpoint incr_times (k : nat) (h : handle) (σ : store)
  : option (list signal * store) :=
  match k with
  | O => Some ([], σ)
  | S k' =>
      match counter_incr h σ with
      | Some (s, σ1) =>
          match incr_times k' h σ1 with
          | Some (ss, σ2) => Some (s :: ss, σ2)
          | None => None
          end
      | None => None
      end
  end.

(** The operations a client may apply to a live counter before releasing
    it. *)
Inductive op : Type := OpIncr | OpGet.

Definition run_op (o : op) (h : handle) (σ : store) : option store :=
  match o with
  | OpIncr => match counter_incr h σ with
              | Some (_, σ') => Some σ'
              | None => None
              end
  | OpGet => match counter_get h σ with
             | Some _ => Some σ
             | None => None
             end
  end.

Fixpoint run_ops (os : list op) (h : handle) (σ : store) : option store :=
  match os with
  | [] => Some σ
  | o :: os' =>
      match run_op o h σ with
      | Some σ' => run_ops os' h σ'
      | None => None
      end
  end.

End CounterLib.

(** ** The C library functions the driver calls *)

Module Libc.

Definition char_code (c : ascii) : Z := Z.of_N (N_of_ascii c).

(** [isspace] in the C locale: space, and the controls from tab to carriage
    return. *)
Definition isspace (c : ascii) : bool :=
  (char_code c =? 32) || ((9 <=? char_code c) && (char_code c <=? 13)).

Definition isdigit (c : ascii) : bool :=
  (48 <=? char_code c) && (char_code c <=? 57).

Definition digit_value (c : ascii) : Z := char_code c - 48.

Fixpoint skip_space (s : string) : string :=
  match s with
  | String c rest => if isspace c then skip_space rest else s
  | EmptyString => s
  end.

(** The optional sign: [true] for a minus sign. *)
Definition skip_sign (s : string) : bool * string :=
  match s with
  | String c rest =>
      if Ascii.eqb c "-" then (true, rest)
      else if Ascii.eqb c "+" then (false, rest)
      else (false, s)
  | EmptyString => (false, s)
  end.

(** The value of the longest prefix of decimal digits, read left to right
    on top of [acc]. *)
Fixpoint accumulate (acc : Z) (s : string) : Z :=
  match s with
  | String c rest =>
      if isdigit c then accumulate (10 * acc + digit_value c) rest else acc
  | EmptyString => acc
  end.

(** [strtoull(nptr, NULL, 10)] after ISO C 7.22.1.4: white space is skipped,
    then an optional sign and the longest run of decimal digits make the
    subject sequence.  With no digit there is no conversion and the result is
    [0].  A value above [ULLONG_MAX] gives [ULLONG_MAX] and a range error;
    otherwise a minus sign negates the value in the unsigned type.  The
    second component says whether [errno] was set to [ERANGE]. *)
Definition strtoull (nptr : string) : Z * bool :=
  let (neg, s) := skip_sign (skip_space nptr) in
  match s with
  | String c _ =>
      if isdigit c then
        let v := accumulate 0 s in
        if ULLONG_MAX <? v then (ULLONG_MAX, true)
        else (if neg then (- v) mod (ULLONG_MAX + 1) else v, false)
      else (0, false)
  | EmptyString => (0, false)
  end.

(** The conversion to [size_t], an unsigned type of [size_bits] bits. *)
Definition to_size_t (size_bits : Z) (x : Z) : Z := x mod 2 ^ size_bits.

Definition newline : string := String (ascii_of_nat 10) EmptyString.

(** What [printf] writes for the conversion [PRIu32] of a [uint32_t]. *)
Definition decimal (v : Z) : string :=
  NilZero.string_of_uint (N.to_uint (Z.to_N v)).

End Libc.

(** ** The driver, [counter.c] *)

Module Driver.
Import CounterLib Libc.

(** What the process does that can be seen from outside: the calls into the
    counter library, with their results, and the texts written to the
    standard output, oldest first. *)
Inductive event : Type :=
| EvCreate (h : handle)
| EvIncr (h : handle) (s : signal)
| EvGet (h : handle) (v : Z)
| EvDestroy (h : handle) (s : signal)
| EvPrint (text : string).

Record world : Type := mkWorld { w_store : store; w_trace : list event }.

Definition log (e : event) (σ : store) (w : world) : world :=
  mkWorld σ (w_trace w ++ [e]).

(** The state of the process is threaded through the calls; [None] is
    undefined behaviour (a library precondition was broken). *)
Definition M (A : Type) : Type := world → option (A * world).

Definition ret {A} (a : A) : M A := λ w, Some (a, w).

Definition bind {A B} (m : M A) (k : A → M B) : M B :=
  λ w, match m w with
       | Some (a, w') => k a w'
       | None => None
       end.

Notation "'let*' x ':=' m 'in' k" := (bind m (λ x, k))
  (at level 10, x name, m at level 100, k at level 200).

(** The four library calls as the driver sees them: the C [int] or
    [uint32_t] comes back and the call is recorded. *)
Definition call_counter_create : M handle :=
  λ w, let '(h, σ) := counter_create (w_store w) in
       Some (h, log (EvCreate h) σ w).

Definition call_counter_incr (c : handle) : M Z :=
  λ w, match counter_incr c (w_store w) with
       | Some (s, σ) => Some (int_of_signal s, log (EvIncr c s) σ w)
       | None => None
       end.

Definition call_counter_get (c : handle) : M Z :=
  λ w, match counter_get c (w_store w) with
       | Some v => Some (v, log (EvGet c v) (w_store w) w)
       | None => None
       end.

Definition call_counter_destroy (c : handle) : M Z :=
  λ w, let '(s, σ) := counter_destroy c (w_store w) in
       Some (int_of_signal s, log (EvDestroy c s) σ w).

Definition printf (text : string) : M unit :=
  λ w, Some (tt, log (EvPrint text) (w_store w) w).

(** The body of the overflow branch, lines 21 to 23: it leaves [main] with
    [-1]. *)
Definition on_overflow (c : handle) : M (option Z) :=
  let* _ := printf ("overflow" ++ newline) in
  let* _ := call_counter_destroy c in
  ret (Some (-1)).

(** The [for] loop of lines 17 to 25, from index [i] on.  [Some rc] is a
    [return rc] from inside the loop, [None] is the loop running to its end.
    Inside the body [i < n <= SIZE_MAX], so [i++] does not wrap. *)
Equations? loop (c : handle) (n i : Z) (w : world)
  : option (option Z * world) by wf (Z.to_nat (n - i)) lt :=
  loop c n i w with Z_lt_dec i n := {
    | right _ => Some (None, w)
    | left _ with call_counter_incr c w := {
        | None => None
        | Some (rc, w1) with Z.eq_dec rc 0 := {
            | left _ => loop c n (i + 1) w1
            | right _ => on_overflow c w1 } } }.
Proof. lia. Qed.

(** [main], with [argc] the length of [argv]; [size_bits] is the width of
    [size_t] on the platform. *)
Definition main (size_bits : Z) (argv : list string) : M Z :=
  let argc := Z.of_nat (length argv) in
  if argc <? 2 then ret (-1)
  else
    let n := to_size_t size_bits (fst (strtoull (nth 1 argv EmptyString))) in
    let* c := call_counter_create in
    let* r := loop c n 0 in
    match r with
    | Some rc => ret rc
    | None =>
        let* v := call_counter_get c in
        let* _ := printf (decimal v ++ newline) in
        let* _ := call_counter_destroy c in
        ret 0
    end.

(** The process starts with no counter and nothing written. *)
Definition initial_world : world := mkWorld ∅ [].

(** The standard output: the printed texts in order. *)
Fixpoint output (t : list event) : string :=
  match t with
  | [] => EmptyString
  | EvPrint text :: t' => (text ++ output t')%string
  | _ :: t' => output t'
  end.

End Driver.

(** ** Notions used to state the properties *)

Module Notions.
Import Libc Driver.

(** The number a string of decimal digits denotes, by the weight of each
    position; [None] when a character is not a digit. *)
Fixpoint positional (s : string) : option Z :=
  match s with
  | EmptyString => Some 0
  | String c rest =>
      if isdigit c then
        match positional rest with
        | Some v => Some (digit_value c * 10 ^ Z.of_nat (String.length rest) + v)
        | None => None
        end
      else None
  end.

(** [s] is a decimal string denoting [n]: one digit or more, nothing else. *)
Definition denotes (s : string) (n : Z) : Prop :=
  s ≠ EmptyString ∧ positional s = Some n.

(** An optional sign followed by a decimal digit. *)
Inductive sign_then_digit : string → Prop :=
| std_digit c rest :
    isdigit c = true → sign_then_digit (String c rest)
| std_plus c rest :
    isdigit c = true → sign_then_digit (String "+" (String c rest))
| std_minus c rest :
    isdigit c = true → sign_then_digit (String "-" (String c rest)).

(** Optional white space, an optional sign, then a decimal digit. *)
Inductive begins_with_number : string → Prop :=
| bwn_here s : sign_then_digit s → begins_with_number s
| bwn_space c rest :
    isspace c = true → begins_with_number rest →
    begins_with_number (String c rest).

(** The events that use a counter or the output without creating or
    releasing a counter. *)
Definition uses_counter (e : event) : bool :=
  match e with
  | EvIncr _ _ | EvGet _ _ | EvPrint _ => true
  | EvCreate _ | EvDestroy _ _ => false
  end.

(** What is seen of a run from outside: the exit status and the text on
    the standard output. *)
Definition exit_status (r : option (Z * world)) : option Z :=
  match r with
  | Some (rc, _) => Some rc
  | None => None
  end.

Definition printed (r : option (Z * world)) : option string :=
  match r with
  | Some (_, w) => Some (output (w_trace w))
  | None => None
  end.

End Notions.

(** ** Further notions on arguments and runs *)

Module Observations.
Import CounterLib Libc Driver.

(** The loop bound [n] that line 14 of [counter.c] computes from
    [argv[1]]. *)
Definition converted_count (size_bits : Z) (arg : string) : Z :=
  to_size_t size_bits (strtoull arg).1.

(** The driver without its loop and without the counter: the status and
    the text that the argument list alone determines. *)
Definition summary (size_bits : Z) (argv : list string) : Z * string :=
  match argv !! 1%nat with
  | None => (-1, EmptyString)
  | Some arg =>
      if converted_count size_bits arg <=? UINT32_MAX
      then (0, (decimal (converted_count size_bits arg) ++ newline)%string)
      else (-1, ("overflow" ++ newline)%string)
  end.

(** The number of [counter_incr] calls in a trace. *)
Fixpoint count_incr (t : list event) : nat :=
  match t with
  | [] => O
  | EvIncr _ _ :: t' => S (count_incr t')
  | _ :: t' => count_incr t'
  end.

(** The handle a library call was made on. *)
Definition event_handle (e : event) : option handle :=
  match e with
  | EvCreate h | EvIncr h _ | EvGet h _ | EvDestroy h _ => Some h
  | EvPrint _ => None
  end.

(** The event is a print or a library call on the handle [c]. *)
Definition only_on (c : handle) (e : event) : bool :=
  match event_handle e with
  | Some h => Pos.eqb h c
  | None => true
  end.

Fixpoint all_space (s : string) : bool :=
  match s with
  | EmptyString => true
  | String c rest => isspace c && all_space rest
  end.

(** The string is empty or starts with a character that is not a digit. *)
Definition no_leading_digit (s : string) : bool :=
  match s with
  | EmptyString => true
  | String c _ => negb (isdigit c)
  end.

End Observations.

(** * Properties of the counter library *)

Module CounterFacts.
Import CounterLib.

Lemma create_lookup (σ : store) :
  (counter_create σ).2 !! (counter_create σ).1 = Some (mkCounter 0).
Proof. apply lookup_insert_eq. Qed.

(** Releasing the counter just created gives the store back. *)
Lemma create_destroy (σ : store) :
  delete (counter_create σ).1 (counter_create σ).2 = σ.
Proof.
  unfold counter_create. cbn [fst snd].
  apply delete_insert_id, not_elem_of_dom, is_fresh.
Qed.

Lemma create_store_ok (σ : store) : store_ok σ → store_ok (counter_create σ).2.
Proof.
  intros Hok h c. unfold counter_create. cbn [snd]. rewrite lookup_insert.
  destruct (decide (fresh (dom σ) = h)) as [_|_].
  - intros [= <-]. unfold counter_ok, UINT32_MAX. cbn. lia.
  - apply Hok.
Qed.

(** One increment below the maximum. *)
Lemma incr_below (h : handle) (σ : store) (c : Counter) :
  σ !! h = Some c → value c ≠ UINT32_MAX →
  counter_incr h σ = Some (Success, <[h := mkCounter (value c + 1)]> σ).
Proof.
  intros Hh Hne. unfold counter_incr. rewrite Hh.
  destruct (Z.eqb_spec (value c) UINT32_MAX); [contradiction | reflexivity].
Qed.

(** One increment at the maximum. *)
Lemma incr_at_max (h : handle) (σ : store) (c : Counter) :
  σ !! h = Some c → value c = UINT32_MAX →
  counter_incr h σ = Some (Overflow, σ).
Proof.
  intros Hh Hmax. unfold counter_incr. rewrite Hh, Hmax, Z.eqb_refl.
  reflexivity.
Qed.

Lemma get_live (h : handle) (σ : store) (c : Counter) :
  σ !! h = Some c → counter_get h σ = Some (value c).
Proof. intros Hh. unfold counter_get. rewrite Hh. reflexivity. Qed.

(** [k] increments from value [v] succeed as long as [v + k] fits. *)
Lemma incr_times_success (k : nat) :
  ∀ (h : handle) (σ : store) (v : Z),
    σ !! h = Some (mkCounter v) → v + Z.of_nat k <= UINT32_MAX →
    ∃ σ', incr_times k h σ = Some (repeat Success k, σ')
          ∧ σ' !! h = Some (mkCounter (v + Z.of_nat k))
          ∧ ∀ h', h' ≠ h → σ' !! h' = σ !! h'.
Proof.
  induction k as [|k IH]; intros h σ v Hh Hfit.
  - exists σ. cbn. rewrite Z.add_0_r. auto.
  - cbn [incr_times]. rewrite (incr_below h σ _ Hh) by (cbn; lia).
    destruct (IH h (<[h := mkCounter (v + 1)]> σ) (v + 1)) as (σ' & Hrun & Hv & Hfr).
    + apply lookup_insert_eq.
    + lia.
    + exists σ'. cbn [value]. rewrite Hrun. split; [reflexivity|]. split.
      * rewrite Hv. f_equal. f_equal. lia.
      * intros h' Hne. rewrite (Hfr h' Hne). apply lookup_insert_ne. congruence.
Qed.

(** The invariant is kept by every operation on a live counter, and the
    counter stays live. *)
Lemma run_op_ok (o : op) (h : handle) (σ : store) :
  store_ok σ → is_Some (σ !! h) →
  ∃ σ', run_op o h σ = Some σ' ∧ store_ok σ' ∧ is_Some (σ' !! h).
Proof.
  intros Hok [c Hh]. destruct o; cbn.
  - destruct (Z.eq_dec (value c) UINT32_MAX) as [Hmax|Hne].
    + rewrite (incr_at_max h σ c Hh Hmax). eauto.
    + rewrite (incr_below h σ c Hh Hne).
      eexists. split; [reflexivity|]. split.
      * intros h' c'. rewrite lookup_insert.
        destruct (decide (h = h')) as [_|_]; [|apply Hok].
        intros [= <-]. pose proof (Hok h c Hh) as Hc.
        unfold counter_ok in *. cbn. lia.
      * rewrite lookup_insert_eq. eauto.
  - rewrite (get_live h σ c Hh). eauto.
Qed.

Lemma run_ops_ok (os : list op) :
  ∀ (h : handle) (σ : store),
    store_ok σ → is_Some (σ !! h) →
    ∃ σ', run_ops os h σ = Some σ' ∧ store_ok σ' ∧ is_Some (σ' !! h).
Proof.
  induction os as [|o os IH]; intros h σ Hok Hlive.
  - exists σ. auto.
  - destruct (run_op_ok o h σ Hok Hlive) as (σ1 & Hstep & Hok1 & Hlive1).
    cbn. rewrite Hstep. apply IH; assumption.
Qed.

(** C1.  On a live counter whose value is [UINT32_MAX], [counter_incr]
    returns (it is defined), signals [Overflow], a result different from
    success whose C code is not the success code, and hands the store back
    as it was; [counter_get] afterwards still returns [UINT32_MAX]. *)
Theorem incr_at_max_is_overflow (h : handle) (σ : store) (c : Counter) :
  σ !! h = Some c → value c = UINT32_MAX →
  ∃ σ', counter_incr h σ = Some (Overflow, σ')
        ∧ σ' = σ
        ∧ counter_get h σ' = Some UINT32_MAX
        ∧ Overflow ≠ Success
        ∧ int_of_signal Overflow ≠ int_of_signal Success.
Proof.
  intros Hh Hmax. exists σ.
  split; [exact (incr_at_max h σ c Hh Hmax)|].
  split; [reflexivity|].
  split; [rewrite (get_live h σ c Hh); congruence|].
  split; [discriminate|]. cbn. lia.
Qed.

Lemma incr_at_max_is_overflow_witness :
  ∃ σ', counter_incr 1%positive {[ 1%positive := mkCounter UINT32_MAX ]}
          = Some (Overflow, σ')
        ∧ σ' = {[ 1%positive := mkCounter UINT32_MAX ]}
        ∧ counter_get 1%positive σ' = Some UINT32_MAX
        ∧ Overflow ≠ Success
        ∧ int_of_signal Overflow ≠ int_of_signal Success.
Proof.
  apply (incr_at_max_is_overflow 1%positive
           {[ 1%positive := mkCounter UINT32_MAX ]} (mkCounter UINT32_MAX)).
  - reflexivity.
  - reflexivity.
Defined.

(** C2.  For every [n] from [0] to [UINT32_MAX]: a counter just created
    reads [0], and [n] increments of it all signal success and leave it
    reading exactly [n]. *)
Theorem create_then_n_increments (σ : store) (n : Z) :
  0 <= n <= UINT32_MAX →
  counter_get (counter_create σ).1 (counter_create σ).2 = Some 0
  ∧ ∃ σ', incr_times (Z.to_nat n) (counter_create σ).1 (counter_create σ).2
            = Some (repeat Success (Z.to_nat n), σ')
          ∧ counter_get (counter_create σ).1 σ' = Some n.
Proof.
  intros Hn. split.
  - rewrite (get_live _ _ _ (create_lookup σ)). reflexivity.
  - destruct (incr_times_success (Z.to_nat n) _ _ 0 (create_lookup σ))
      as (σ' & Hrun & Hv & _).
    + rewrite Z2Nat.id; lia.
    + exists σ'. split; [exact Hrun|].
      rewrite (get_live _ _ _ Hv). cbn. rewrite Z2Nat.id; [reflexivity | lia].
Qed.

Lemma create_then_n_increments_witness :
  counter_get (counter_create ∅).1 (counter_create ∅).2 = Some 0
  ∧ ∃ σ', incr_times (Z.to_nat 3) (counter_create ∅).1 (counter_create ∅).2
            = Some (repeat Success (Z.to_nat 3), σ')
          ∧ counter_get (counter_create ∅).1 σ' = Some 3.
Proof.
  apply (create_then_n_increments ∅ 3). unfold UINT32_MAX. lia.
Defined.

(** C3.  From a store that satisfies [0 <= value <= UINT32_MAX], create a
    counter and apply any sequence of increments and reads: every step is
    defined, the store reached satisfies the invariant again and the counter
    is still live with its value in range.  In the state reached an
    increment either succeeds, adding exactly one to a value that was below
    [UINT32_MAX], or is rejected with the store unchanged, and that only at
    [UINT32_MAX]; a read leaves the store as it is. *)
Theorem value_stays_in_range (σ : store) (os : list op) :
  store_ok σ →
  ∃ (σ' : store) (c : Counter),
    run_ops os (counter_create σ).1 (counter_create σ).2 = Some σ'
    ∧ store_ok σ'
    ∧ σ' !! (counter_create σ).1 = Some c
    ∧ 0 <= value c <= UINT32_MAX
    ∧ ((value c < UINT32_MAX
        ∧ counter_incr (counter_create σ).1 σ'
          = Some (Success,
                  <[(counter_create σ).1 := mkCounter (value c + 1)]> σ'))
       ∨ (value c = UINT32_MAX
          ∧ counter_incr (counter_create σ).1 σ' = Some (Overflow, σ')))
    ∧ run_op OpGet (counter_create σ).1 σ' = Some σ'.
Proof.
  intros Hok.
  destruct (run_ops_ok os (counter_create σ).1 (counter_create σ).2)
    as (σ' & Hrun & Hok' & [c Hc]).
  - apply create_store_ok, Hok.
  - rewrite create_lookup. eauto.
  - exists σ', c. pose proof (Hok' _ _ Hc) as Hrange. unfold counter_ok in Hrange.
    split; [exact Hrun|]. split; [exact Hok'|]. split; [exact Hc|].
    split; [exact Hrange|]. split.
    + destruct (Z.eq_dec (value c) UINT32_MAX) as [Hmax|Hne].
      * right. split; [assumption|]. exact (incr_at_max _ _ _ Hc Hmax).
      * left. split; [lia|]. exact (incr_below _ _ _ Hc Hne).
    + unfold run_op. rewrite (get_live _ _ _ Hc). reflexivity.
Qed.

Lemma value_stays_in_range_witness :
  ∃ (σ' : store) (c : Counter),
    run_ops [OpIncr; OpGet; OpIncr] (counter_create ∅).1 (counter_create ∅).2
      = Some σ'
    ∧ store_ok σ'
    ∧ σ' !! (counter_create ∅).1 = Some c
    ∧ 0 <= value c <= UINT32_MAX
    ∧ ((value c < UINT32_MAX
        ∧ counter_incr (counter_create ∅).1 σ'
          = Some (Success,
                  <[(counter_create ∅).1 := mkCounter (value c + 1)]> σ'))
       ∨ (value c = UINT32_MAX
          ∧ counter_incr (counter_create ∅).1 σ' = Some (Overflow, σ')))
    ∧ run_op OpGet (counter_create ∅).1 σ' = Some σ'.
Proof.
  apply (value_stays_in_range ∅ [OpIncr; OpGet; OpIncr]).
  intros h c Hh. rewrite lookup_empty in Hh. discriminate.
Defined.

(** C4.  [counter_destroy] on a live handle signals success and releases
    the counter; on a handle that is not live it signals [InvalidHandle]
    and changes nothing.  So the second of two [counter_destroy] calls on one
    handle signals [InvalidHandle], and neither call is undefined. *)
Theorem destroy_signals (h : handle) (σ : store) :
  (is_Some (σ !! h) →
     counter_destroy h σ = (Success, delete h σ)
     ∧ counter_destroy h (counter_destroy h σ).2
       = (InvalidHandle, delete h σ))
  ∧ (σ !! h = None → counter_destroy h σ = (InvalidHandle, σ))
  ∧ InvalidHandle ≠ Success
  ∧ int_of_signal InvalidHandle ≠ int_of_signal Success.
Proof.
  split; [|split; [|split]].
  - intros [c Hh].
    assert (counter_destroy h σ = (Success, delete h σ)) as ->
      by (unfold counter_destroy; rewrite Hh; reflexivity).
    split; [reflexivity|]. cbn [snd]. unfold counter_destroy.
    rewrite lookup_delete_eq. reflexivity.
  - intros Hh. unfold counter_destroy. rewrite Hh. reflexivity.
  - discriminate.
  - cbn. lia.
Qed.

Lemma destroy_signals_witness :
  counter_destroy (counter_create ∅).1 (counter_create ∅).2
    = (Success, delete (counter_create ∅).1 (counter_create ∅).2)
  ∧ counter_destroy (counter_create ∅).1
      (counter_destroy (counter_create ∅).1 (counter_create ∅).2).2
    = (InvalidHandle, delete (counter_create ∅).1 (counter_create ∅).2)
  ∧ counter_destroy 7%positive (∅ : store) = (InvalidHandle, ∅).
Proof.
  destruct (destroy_signals (counter_create ∅).1 (counter_create ∅).2)
    as [Hlive _].
  destruct (destroy_signals 7%positive ∅) as (_ & Hdead & _).
  split; [apply Hlive | split; [apply Hlive | apply Hdead]].
  - rewrite create_lookup. eauto.
  - rewrite create_lookup. eauto.
  - reflexivity.
Defined.

End CounterFacts.

(** * Properties of the driver *)

Module DriverFacts.
Import CounterLib Libc Driver Notions CounterFacts.

Lemma loop_unfold (c : handle) (n i : Z) (w : world) :
  loop c n i w =
  if Z_lt_dec i n then
    match call_counter_incr c w with
    | Some (rc, w1) =>
        if Z.eq_dec rc 0 then loop c n (i + 1) w1 else on_overflow c w1
    | None => None
    end
  else Some (None, w).
Proof.
  simp loop. destruct (Z_lt_dec i n); cbn; [|reflexivity].
  destruct (call_counter_incr c w) as [[rc w1]|]; cbn; [|reflexivity].
  destruct (Z.eq_dec rc 0); reflexivity.
Qed.

(** *** Parsing *)

Lemma isdigit_range (c : ascii) : isdigit c = true → 48 <= char_code c <= 57.
Proof. unfold isdigit. lia. Qed.

Lemma isdigit_not_space (c : ascii) : isdigit c = true → isspace c = false.
Proof. intros H%isdigit_range. unfold isspace. lia. Qed.

Lemma isdigit_not_sign (c : ascii) :
  isdigit c = true → Ascii.eqb c "-" = false ∧ Ascii.eqb c "+" = false.
Proof.
  intros H%isdigit_range.
  split; apply Ascii.eqb_neq; intros ->.
  - change (char_code "-") with 45 in H. lia.
  - change (char_code "+") with 43 in H. lia.
Qed.

Lemma digit_value_range (c : ascii) : isdigit c = true → 0 <= digit_value c <= 9.
Proof. intros H%isdigit_range. unfold digit_value. lia. Qed.

(** Reading left to right gives the positional value. *)
Lemma accumulate_positional (s : string) :
  ∀ acc v, positional s = Some v →
           accumulate acc s = acc * 10 ^ Z.of_nat (String.length s) + v.
Proof.
  induction s as [|c rest IH]; cbn [positional accumulate String.length]; intros acc v.
  - intros [= <-]. cbn. lia.
  - destruct (isdigit c); [|discriminate].
    destruct (positional rest) as [v'|]; [|discriminate].
    intros [= <-]. rewrite (IH _ v' eq_refl).
    rewrite Nat2Z.inj_succ, Z.pow_succ_r by lia. ring.
Qed.

(** [strtoull] on a decimal string: the number it denotes, clamped. *)
Lemma strtoull_decimal (s : string) (n : Z) :
  denotes s n →
  strtoull s = (if ULLONG_MAX <? n then ULLONG_MAX else n, ULLONG_MAX <? n).
Proof.
  intros [Hne Hpos]. destruct s as [|c rest]; [contradiction|].
  assert (isdigit c = true) as Hd.
  { cbn [positional] in Hpos. destruct (isdigit c); [reflexivity | discriminate]. }
  unfold strtoull. cbn [skip_space]. rewrite (isdigit_not_space c Hd).
  cbn [skip_sign]. destruct (isdigit_not_sign c Hd) as [-> ->].
  rewrite Hd. rewrite (accumulate_positional _ 0 n Hpos).
  rewrite Z.mul_0_l, Z.add_0_l. cbn zeta.
  destruct (ULLONG_MAX <? n); reflexivity.
Qed.

Lemma skip_space_number (s : string) :
  sign_then_digit (skip_space s) → begins_with_number s.
Proof.
  induction s as [|c rest IH]; cbn [skip_space].
  - apply bwn_here.
  - destruct (isspace c) eqn:Hsp.
    + intros H. apply bwn_space; auto.
    + apply bwn_here.
Qed.

(** With no digit where the subject sequence should start, [strtoull]
    converts nothing: it returns [0] and sets no error. *)
Lemma strtoull_no_conversion (s : string) :
  ¬ begins_with_number s → strtoull s = (0, false).
Proof.
  intros Hno.
  assert (¬ sign_then_digit (skip_space s)) as Hsd
    by (intros H; apply Hno, skip_space_number, H).
  unfold strtoull. destruct (skip_space s) as [|c rest]; [reflexivity|].
  cbn [skip_sign].
  destruct (Ascii.eqb_spec c "-") as [->|Hm];
    [|destruct (Ascii.eqb_spec c "+") as [->|Hp]].
  - destruct rest as [|d rest']; [reflexivity|].
    destruct (isdigit d) eqn:Hd; [|reflexivity].
    exfalso. apply Hsd. apply std_minus, Hd.
  - destruct rest as [|d rest']; [reflexivity|].
    destruct (isdigit d) eqn:Hd; [|reflexivity].
    exfalso. apply Hsd. apply std_plus, Hd.
  - destruct (isdigit c) eqn:Hd; [|reflexivity].
    exfalso. apply Hsd. apply std_digit, Hd.
Qed.

(** *** Printing *)

(** One step of [accumulate] or [positional] on a digit character that is
    known: the tests and the digit value are evaluated. *)
Ltac eval_digit :=
  cbn [accumulate positional];
  repeat match goal with
    | |- context [isdigit ?c] =>
        let b := eval vm_compute in (isdigit c) in
        change (isdigit c) with b
    | |- context [digit_value ?c] =>
        let v := eval vm_compute in (digit_value c) in
        change (digit_value c) with v
    end;
  cbv iota.

Lemma accumulate_uint_acc (d : Decimal.uint) :
  ∀ p : positive,
    accumulate (Z.pos p) (NilEmpty.string_of_uint d)
    = Z.pos (Pos.of_uint_acc d p).
Proof.
  induction d; intros p; cbn [NilEmpty.string_of_uint Pos.of_uint_acc];
    [reflexivity | ..];
    rewrite <- IHd; eval_digit; f_equal; lia.
Qed.

Lemma accumulate_uint (d : Decimal.uint) :
  accumulate 0 (NilEmpty.string_of_uint d) = Z.of_N (Pos.of_uint d).
Proof.
  induction d; cbn [NilEmpty.string_of_uint Pos.of_uint];
    [reflexivity | exact IHd | ..];
    cbn [Z.of_N]; rewrite <- accumulate_uint_acc; eval_digit; reflexivity.
Qed.

Lemma positional_uint (d : Decimal.uint) :
  is_Some (positional (NilEmpty.string_of_uint d)).
Proof.
  induction d; cbn [NilEmpty.string_of_uint]; [eexists; reflexivity | ..];
    destruct IHd as [v Hv];
    eexists; eval_digit; rewrite Hv; reflexivity.
Qed.

(** What [printf] writes for a number is a decimal string denoting it. *)
Lemma decimal_denotes (n : Z) : 0 <= n → denotes (decimal n) n.
Proof.
  intros Hn. unfold decimal.
  destruct (Z.to_N n) as [|p] eqn:Hp.
  - assert (n = 0) as -> by lia. split; [discriminate | reflexivity].
  - cbn [N.to_uint].
    pose proof (Unsigned.to_uint_nonnil p) as Hnil.
    assert (NilZero.string_of_uint (Pos.to_uint p)
            = NilEmpty.string_of_uint (Pos.to_uint p)) as ->
      by (destruct (Pos.to_uint p); [contradiction | reflexivity ..]).
    split.
    + destruct (Pos.to_uint p); [contradiction | discriminate ..].
    + destruct (positional_uint (Pos.to_uint p)) as [v Hv].
      rewrite Hv. f_equal.
      pose proof (accumulate_positional _ 0 v Hv) as Hacc.
      rewrite accumulate_uint, Unsigned.of_to in Hacc. lia.
Qed.

(** A value that fits [size_t] is not changed by the conversion. *)
Lemma to_size_t_fits (size_bits x : Z) :
  0 <= x < 2 ^ size_bits → to_size_t size_bits x = x.
Proof. intros H. unfold to_size_t. apply Z.mod_small, H. Qed.

(** The remark in [loop]: the increment of the index never wraps. *)
Lemma loop_index_fits (size_bits x i : Z) :
  0 <= size_bits → 0 <= i < to_size_t size_bits x →
  to_size_t size_bits (i + 1) = i + 1.
Proof.
  intros Hb Hi. apply to_size_t_fits.
  assert (0 < 2 ^ size_bits) by (apply Z.pow_pos_nonneg; lia).
  pose proof (Z.mod_pos_bound x (2 ^ size_bits) ltac:(lia)).
  unfold to_size_t in Hi. lia.
Qed.

Lemma accumulate_nonneg (s : string) :
  ∀ acc, 0 <= acc → 0 <= accumulate acc s.
Proof.
  induction s as [|c rest IH]; cbn [accumulate]; intros acc Hacc; [exact Hacc|].
  destruct (isdigit c) eqn:Hd; [|exact Hacc].
  apply IH. pose proof (digit_value_range c Hd). lia.
Qed.

Lemma strtoull_nonneg (s : string) : 0 <= (strtoull s).1.
Proof.
  unfold strtoull. destruct (skip_sign (skip_space s)) as [neg t].
  destruct t as [|c rest]; [cbn; lia|].
  destruct (isdigit c); [|cbn; lia]. cbn zeta.
  destruct (ULLONG_MAX <? accumulate 0 (String c rest)) eqn:Hcmp;
    cbn [fst]; [unfold ULLONG_MAX; lia|].
  destruct neg.
  - apply Z.mod_pos_bound. unfold ULLONG_MAX. lia.
  - apply accumulate_nonneg. lia.
Qed.

Lemma to_size_t_nonneg (size_bits x : Z) : 0 <= x → 0 <= to_size_t size_bits x.
Proof.
  intros Hx. unfold to_size_t.
  destruct (Z.eq_dec (2 ^ size_bits) 0) as [->|Hnz].
  - rewrite Z.mod_0_r. exact Hx.
  - assert (0 <= 2 ^ size_bits) by (apply Z.pow_nonneg; lia).
    apply Z.mod_pos_bound. lia.
Qed.

(** *** The library calls as the driver sees them *)

Lemma call_incr_below (c : handle) (w : world) (v : Z) :
  w_store w !! c = Some (mkCounter v) → v ≠ UINT32_MAX →
  call_counter_incr c w
  = Some (0, mkWorld (<[c := mkCounter (v + 1)]> (w_store w))
                     (w_trace w ++ [EvIncr c Success])).
Proof.
  intros Hc Hne. unfold call_counter_incr.
  rewrite (incr_below c _ _ Hc) by exact Hne. reflexivity.
Qed.

Lemma call_incr_at_max (c : handle) (w : world) :
  w_store w !! c = Some (mkCounter UINT32_MAX) →
  call_counter_incr c w
  = Some (-1, mkWorld (w_store w) (w_trace w ++ [EvIncr c Overflow])).
Proof.
  intros Hc. unfold call_counter_incr.
  rewrite (incr_at_max c _ _ Hc) by reflexivity. reflexivity.
Qed.

Lemma on_overflow_live (c : handle) (w : world) :
  is_Some (w_store w !! c) →
  on_overflow c w
  = Some (Some (-1),
          mkWorld (delete c (w_store w))
                  (w_trace w ++ [EvPrint ("overflow" ++ newline);
                                 EvDestroy c Success])).
Proof.
  intros [x Hc]. unfold on_overflow, bind, printf, call_counter_destroy, ret, log.
  cbn [w_store w_trace]. unfold counter_destroy. rewrite Hc.
  rewrite <- app_assoc. reflexivity.
Qed.

(** *** The loop *)

(** [k] iterations are left and the counter has room for them: every
    increment succeeds and the loop runs to its end. *)
Lemma loop_succeeds (k : nat) :
  ∀ (c : handle) (n i : Z) (w : world) (v : Z),
    w_store w !! c = Some (mkCounter v) →
    i + Z.of_nat k = n → v + Z.of_nat k <= UINT32_MAX →
    loop c n i w
    = Some (None, mkWorld (<[c := mkCounter (v + Z.of_nat k)]> (w_store w))
                          (w_trace w ++ repeat (EvIncr c Success) k)).
Proof.
  induction k as [|k IH]; intros c n i w v Hc Hi Hv; rewrite loop_unfold.
  - destruct (Z_lt_dec i n); [lia|]. destruct w as [σ t]. cbn [w_store w_trace] in *.
    rewrite Z.add_0_r, (insert_id _ _ _ Hc), app_nil_r. reflexivity.
  - destruct (Z_lt_dec i n); [|lia].
    rewrite (call_incr_below c w v Hc) by lia.
    destruct (Z.eq_dec 0 0) as [_|]; [|contradiction].
    rewrite (IH c n (i + 1) _ (v + 1)); cbn [w_store w_trace]; try lia.
    + rewrite insert_insert_eq, <- app_assoc.
      do 3 f_equal. f_equal. f_equal. lia.
    + apply lookup_insert_eq.
Qed.

(** The counter reaches [UINT32_MAX] after [k] more increments and the loop
    asks for more: the next increment overflows and the loop returns [-1]
    through the overflow branch. *)
Lemma loop_overflows (k : nat) :
  ∀ (c : handle) (n i : Z) (w : world) (v : Z),
    w_store w !! c = Some (mkCounter v) →
    v + Z.of_nat k = UINT32_MAX → i + Z.of_nat k < n →
    loop c n i w
    = Some (Some (-1),
            mkWorld (delete c (w_store w))
                    (w_trace w ++ repeat (EvIncr c Success) k
                       ++ [EvIncr c Overflow;
                           EvPrint ("overflow" ++ newline);
                           EvDestroy c Success])).
Proof.
  induction k as [|k IH]; intros c n i w v Hc Hv Hi; rewrite loop_unfold;
    (destruct (Z_lt_dec i n); [|lia]).
  - assert (v = UINT32_MAX) as -> by lia.
    rewrite (call_incr_at_max c w Hc).
    destruct (Z.eq_dec (-1) 0) as [|_]; [discriminate|].
    rewrite on_overflow_live by (cbn [w_store]; eauto).
    cbn [w_store w_trace repeat app]. rewrite <- app_assoc. reflexivity.
  - rewrite (call_incr_below c w v Hc) by lia.
    destruct (Z.eq_dec 0 0) as [_|]; [|contradiction].
    rewrite (IH c n (i + 1) _ (v + 1)); cbn [w_store w_trace]; try lia.
    + rewrite delete_insert_eq, <- app_assoc. reflexivity.
    + apply lookup_insert_eq.
Qed.

(** *** [main] *)

Lemma main_no_argument (size_bits : Z) (argv : list string) (w : world) :
  (length argv < 2)%nat → main size_bits argv w = Some (-1, w).
Proof.
  intros Hlen. unfold main.
  destruct (Z.ltb_spec (Z.of_nat (length argv)) 2); [reflexivity | lia].
Qed.

(** With an argument, [main] is the creation of a counter followed by the
    loop and what comes after it. *)
Lemma main_with_argument (size_bits : Z) (argv : list string) (arg : string)
    (w : world) :
  argv !! 1%nat = Some arg →
  main size_bits argv w
  = match loop (counter_create (w_store w)).1
            (to_size_t size_bits (strtoull arg).1) 0
            (mkWorld (counter_create (w_store w)).2
                     (w_trace w ++ [EvCreate (counter_create (w_store w)).1]))
    with
    | Some (Some rc, w2) => Some (rc, w2)
    | Some (None, w2) =>
        match counter_get (counter_create (w_store w)).1 (w_store w2) with
        | Some v =>
            Some (0, mkWorld
                       (counter_destroy (counter_create (w_store w)).1
                          (w_store w2)).2
                       (w_trace w2
                          ++ [EvGet (counter_create (w_store w)).1 v;
                              EvPrint (decimal v ++ newline);
                              EvDestroy (counter_create (w_store w)).1
                                (counter_destroy (counter_create (w_store w)).1
                                   (w_store w2)).1]))
        | None => None
        end
    | None => None
    end.
Proof.
  intros Harg. unfold main.
  pose proof (lookup_lt_Some _ _ _ Harg) as Hlen.
  destruct (Z.ltb_spec (Z.of_nat (length argv)) 2); [lia|].
  rewrite (nth_lookup_Some _ _ EmptyString _ Harg).
  unfold bind at 1. unfold call_counter_create, log.
  destruct (counter_create (w_store w)) as [c σ1] eqn:Hcreate. cbn [fst snd].
  unfold bind at 1.
  destruct (loop c _ 0 _) as [[[rc|] w2]|]; [reflexivity| |reflexivity].
  unfold bind, call_counter_get, printf, call_counter_destroy, ret, log.
  destruct (counter_get c (w_store w2)) as [v|]; [|reflexivity].
  cbn [w_store w_trace]. unfold counter_destroy.
  destruct (w_store w2 !! c); cbn [fst snd]; rewrite <- !app_assoc; reflexivity.
Qed.

(** The count fits the counter: the normal path. *)
Lemma main_counts (size_bits : Z) (argv : list string) (arg : string)
    (w : world) (n : Z) :
  argv !! 1%nat = Some arg →
  to_size_t size_bits (strtoull arg).1 = n → 0 <= n <= UINT32_MAX →
  main size_bits argv w
  = Some (0, mkWorld (w_store w)
               (w_trace w
                  ++ EvCreate (counter_create (w_store w)).1
                  :: repeat (EvIncr (counter_create (w_store w)).1 Success)
                       (Z.to_nat n)
                  ++ [EvGet (counter_create (w_store w)).1 n;
                      EvPrint (decimal n ++ newline);
                      EvDestroy (counter_create (w_store w)).1 Success])).
Proof.
  intros Harg Hn Hrange. rewrite (main_with_argument _ _ _ _ Harg), Hn.
  rewrite (loop_succeeds (Z.to_nat n) _ n 0 _ 0);
    cbn [w_store w_trace]; try lia; [|apply create_lookup].
  rewrite Z2Nat.id, Z.add_0_l by lia.
  unfold counter_get, counter_destroy. rewrite lookup_insert_eq. cbn [value fst snd].
  rewrite delete_insert_eq, create_destroy, <- !app_assoc. reflexivity.
Qed.

(** The count exceeds the counter: the overflow path. *)
Lemma main_overflows (size_bits : Z) (argv : list string) (arg : string)
    (w : world) :
  argv !! 1%nat = Some arg →
  UINT32_MAX < to_size_t size_bits (strtoull arg).1 →
  main size_bits argv w
  = Some (-1, mkWorld (w_store w)
                (w_trace w
                   ++ EvCreate (counter_create (w_store w)).1
                   :: repeat (EvIncr (counter_create (w_store w)).1 Success)
                        (Z.to_nat UINT32_MAX)
                   ++ [EvIncr (counter_create (w_store w)).1 Overflow;
                       EvPrint ("overflow" ++ newline);
                       EvDestroy (counter_create (w_store w)).1 Success])).
Proof.
  intros Harg Hbig. rewrite (main_with_argument _ _ _ _ Harg).
  assert (0 <= UINT32_MAX) as Hpos by (unfold UINT32_MAX; lia).
  rewrite (loop_overflows (Z.to_nat UINT32_MAX) _ _ 0 _ 0);
    cbn [w_store w_trace]; try lia; [|apply create_lookup].
  rewrite create_destroy, <- !app_assoc. reflexivity.
Qed.

Lemma append_assoc (a b c : string) :
  ((a ++ b) ++ c = a ++ (b ++ c))%string.
Proof.
  induction a as [|x a IH]; [reflexivity|].
  change (String x ((a ++ b) ++ c) = String x (a ++ (b ++ c)))%string.
  rewrite IH. reflexivity.
Qed.

Lemma output_app (t1 t2 : list event) :
  output (t1 ++ t2) = (output t1 ++ output t2)%string.
Proof.
  induction t1 as [|e t1 IH]; [reflexivity|].
  destruct e; cbn [output app]; rewrite IH; try reflexivity.
  symmetry. apply append_assoc.
Qed.

Lemma output_increments (c : handle) (s : signal) (k : nat) :
  output (repeat (EvIncr c s) k) = EmptyString.
Proof. induction k as [|k IH]; [reflexivity | exact IH]. Qed.

Lemma append_empty_r (a : string) : (a ++ EmptyString)%string = a.
Proof.
  induction a as [|x a IH]; [reflexivity|].
  change (String x (a ++ EmptyString)%string = String x a).
  rewrite IH. reflexivity.
Qed.

(** What a trace without a print, then one print, then a release writes. *)
Lemma output_single_print (c : handle) (body : list event) (e d : event)
    (text : string) :
  output body = EmptyString → output [e] = EmptyString →
  output [d] = EmptyString →
  output (EvCreate c :: body ++ [e; EvPrint text; d]) = text.
Proof.
  intros Hbody He Hd.
  change (output (body ++ ([e] ++ EvPrint text :: [d])) = text).
  rewrite !output_app, Hbody, He.
  change (output (EvPrint text :: [d])) with (text ++ output [d])%string.
  rewrite Hd. apply append_empty_r.
Qed.

Lemma uses_counter_increments (c : handle) (s : signal) (k : nat) :
  forallb uses_counter (repeat (EvIncr c s) k) = true.
Proof. induction k as [|k IH]; [reflexivity | exact IH]. Qed.

Lemma to_size_t_0 (size_bits : Z) : to_size_t size_bits 0 = 0.
Proof.
  unfold to_size_t. destruct (Z.eq_dec (2 ^ size_bits) 0) as [->|Hnz].
  - apply Z.mod_0_r.
  - apply Z.mod_0_l, Hnz.
Qed.

Lemma lookup_argv_1 (prog arg : string) : [prog; arg] !! 1%nat = Some arg.
Proof. reflexivity. Qed.

(** C5.  Where [size_t] has 32 bits or more: for every decimal string
    [arg] that denotes an [n] from [0] to [UINT32_MAX], the driver run with
    the one argument [arg] creates one counter, increments it exactly [n]
    times, each time with success, reads [n], prints a decimal string that
    denotes [n] and a newline, releases the counter and exits with status
    [0]. *)
Theorem driver_counts_to_argument (size_bits : Z) (prog arg : string) (n : Z) :
  32 <= size_bits → denotes arg n → 0 <= n <= UINT32_MAX →
  ∃ (c : handle) (t : list event),
    main size_bits [prog; arg] initial_world = Some (0, mkWorld ∅ t)
    ∧ t = EvCreate c :: repeat (EvIncr c Success) (Z.to_nat n)
            ++ [EvGet c n; EvPrint (decimal n ++ newline);
                EvDestroy c Success]
    ∧ output t = (decimal n ++ newline)%string
    ∧ denotes (decimal n) n.
Proof.
  intros Hbits Hden Hn.
  exists (counter_create ∅).1. eexists.
  split; [|split; [reflexivity|split; [|apply decimal_denotes; lia]]].
  - rewrite (main_counts size_bits _ arg initial_world n
               (lookup_argv_1 prog arg)); [reflexivity| |exact Hn].
    rewrite (strtoull_decimal arg n Hden). cbn [fst].
    assert (2 ^ 32 <= 2 ^ size_bits) by (apply Z.pow_le_mono_r; lia).
    unfold UINT32_MAX, ULLONG_MAX in *.
    destruct (Z.ltb_spec 18446744073709551615 n); [lia|].
    apply to_size_t_fits. lia.
  - apply output_single_print; [apply output_increments | reflexivity ..].
Qed.

Lemma driver_counts_to_argument_witness :
  ∃ (c : handle) (t : list event),
    main 64 ["counter"; "5"]%string initial_world = Some (0, mkWorld ∅ t)
    ∧ t = EvCreate c :: repeat (EvIncr c Success) (Z.to_nat 5)
            ++ [EvGet c 5; EvPrint (decimal 5 ++ newline);
                EvDestroy c Success]
    ∧ output t = (decimal 5 ++ newline)%string
    ∧ denotes (decimal 5) 5.
Proof.
  apply (driver_counts_to_argument 64 "counter" "5" 5).
  - lia.
  - split; [discriminate | reflexivity].
  - unfold UINT32_MAX. lia.
Defined.

(** The two runs the specification names, evaluated. *)
Example driver_on_5 :
  exit_status (main 64 ["counter"; "5"]%string initial_world) = Some 0
  ∧ printed (main 64 ["counter"; "5"]%string initial_world)
    = Some ("5" ++ newline)%string.
Proof. split; vm_compute; reflexivity. Qed.

Example driver_on_0 :
  exit_status (main 64 ["counter"; "0"]%string initial_world) = Some 0
  ∧ printed (main 64 ["counter"; "0"]%string initial_world)
    = Some ("0" ++ newline)%string.
Proof. split; vm_compute; reflexivity. Qed.

(** C6.  Where [size_t] is at least as wide as [unsigned long long]: for
    every decimal string [arg] that denotes a count above [UINT32_MAX], the
    driver makes [UINT32_MAX] successful increments, stops at the next one,
    which signals overflow, prints [overflow] and a newline and nothing
    else, releases the counter and exits with status [-1], which is not
    [0]. *)
Theorem driver_reports_overflow (size_bits : Z) (prog arg : string) (n : Z) :
  64 <= size_bits → denotes arg n → UINT32_MAX < n →
  ∃ (c : handle) (t : list event),
    main size_bits [prog; arg] initial_world = Some (-1, mkWorld ∅ t)
    ∧ t = EvCreate c :: repeat (EvIncr c Success) (Z.to_nat UINT32_MAX)
            ++ [EvIncr c Overflow; EvPrint ("overflow" ++ newline);
                EvDestroy c Success]
    ∧ output t = ("overflow" ++ newline)%string
    ∧ -1 ≠ 0.
Proof.
  intros Hbits Hden Hn.
  exists (counter_create ∅).1. eexists.
  split; [|split; [reflexivity|split; [|lia]]].
  - rewrite (main_overflows size_bits _ arg initial_world
               (lookup_argv_1 prog arg)); [reflexivity|].
    rewrite (strtoull_decimal arg n Hden). cbn [fst].
    assert (2 ^ 64 <= 2 ^ size_bits) by (apply Z.pow_le_mono_r; lia).
    unfold UINT32_MAX, ULLONG_MAX in *.
    destruct (Z.ltb_spec 18446744073709551615 n);
      rewrite to_size_t_fits; lia.
  - apply output_single_print; [apply output_increments | reflexivity ..].
Qed.

Lemma driver_reports_overflow_witness :
  ∃ (c : handle) (t : list event),
    main 64 ["counter"; "4294967296"]%string initial_world
      = Some (-1, mkWorld ∅ t)
    ∧ t = EvCreate c :: repeat (EvIncr c Success) (Z.to_nat UINT32_MAX)
            ++ [EvIncr c Overflow; EvPrint ("overflow" ++ newline);
                EvDestroy c Success]
    ∧ output t = ("overflow" ++ newline)%string
    ∧ -1 ≠ 0.
Proof.
  apply (driver_reports_overflow 64 "counter" "4294967296" 4294967296).
  - lia.
  - split; [discriminate | reflexivity].
  - unfold UINT32_MAX. lia.
Defined.

(** Where [size_t] has 32 bits the conversion of line 14 drops the high
    bits of the count: [UINT32_MAX + 1] becomes [0] and no overflow is
    reported.  The overflow exit needs a [size_t] wider than the counter. *)
Example driver_on_32_bit_size_t :
  exit_status (main 32 ["counter"; "4294967296"]%string initial_world)
    = Some 0
  ∧ printed (main 32 ["counter"; "4294967296"]%string initial_world)
    = Some ("0" ++ newline)%string.
Proof. split; vm_compute; reflexivity. Qed.

(** C6, counterexample.  The width of [size_t] is not fixed by the source.
    With 32 bits, the decimal argument [4294967296] denotes a count above
    [UINT32_MAX], yet the driver reports no overflow: it prints [0] and
    exits with status [0]. *)
Lemma no_overflow_report_on_32_bit_size_t :
  denotes "4294967296" 4294967296
  ∧ UINT32_MAX < 4294967296
  ∧ exit_status (main 32 ["counter"; "4294967296"]%string initial_world)
    = Some 0
  ∧ printed (main 32 ["counter"; "4294967296"]%string initial_world)
    = Some ("0" ++ newline)%string
  ∧ printed (main 32 ["counter"; "4294967296"]%string initial_world)
    ≠ Some ("overflow" ++ newline)%string.
Proof.
  split; [split; [discriminate | reflexivity]|].
  split; [unfold UINT32_MAX; lia|].
  split; [vm_compute; reflexivity|].
  split; [vm_compute; reflexivity|].
  vm_compute. discriminate.
Qed.

(** C7.  With no argument ([argc < 2]) [main] returns [-1], which is not
    [0], at once: the world is handed back as it was, so no counter is
    created, no counter operation is made and nothing is printed. *)
Theorem driver_without_argument (size_bits : Z) (argv : list string)
    (w : world) :
  Z.of_nat (length argv) < 2 →
  main size_bits argv w = Some (-1, w)
  ∧ exit_status (main size_bits argv initial_world) = Some (-1)
  ∧ printed (main size_bits argv initial_world) = Some EmptyString
  ∧ (∃ w', main size_bits argv initial_world = Some (-1, w')
           ∧ w_trace w' = [] ∧ w_store w' = ∅)
  ∧ -1 ≠ 0.
Proof.
  intros Hargc. rewrite !main_no_argument by lia.
  split; [reflexivity|]. split; [reflexivity|]. split; [reflexivity|].
  split; [|lia]. exists initial_world. auto.
Qed.

Lemma driver_without_argument_witness :
  main 64 ["counter"%string] initial_world = Some (-1, initial_world)
  ∧ exit_status (main 64 ["counter"%string] initial_world) = Some (-1)
  ∧ printed (main 64 ["counter"%string] initial_world) = Some EmptyString
  ∧ (∃ w', main 64 ["counter"%string] initial_world = Some (-1, w')
           ∧ w_trace w' = [] ∧ w_store w' = ∅)
  ∧ -1 ≠ 0.
Proof.
  apply (driver_without_argument 64 ["counter"%string] initial_world).
  cbn. lia.
Defined.

(** C8.  Every run of the driver ends, and at the exit no counter is left
    in the store.  Either no counter was created (the exit with [-1] for a
    missing argument), or the run is the creation of a counter, then
    increments, reads and prints only, then as its last action a successful
    [counter_destroy] of the handle created; this holds for the exit with
    [0] and for the overflow exit with [-1]. *)
Theorem driver_releases_counter (size_bits : Z) (argv : list string) :
  ∃ (status : Z) (t : list event),
    main size_bits argv initial_world = Some (status, mkWorld ∅ t)
    ∧ ((status = -1 ∧ t = [])
       ∨ ∃ (c : handle) (body : list event),
           (status = 0 ∨ status = -1)
           ∧ t = EvCreate c :: body ++ [EvDestroy c Success]
           ∧ forallb uses_counter body = true).
Proof.
  destruct (argv !! 1%nat) as [arg|] eqn:Harg.
  - pose proof (to_size_t_nonneg size_bits _ (strtoull_nonneg arg)) as Hpos.
    destruct (Z_le_gt_dec (to_size_t size_bits (strtoull arg).1) UINT32_MAX)
      as [Hfit|Hbig].
    + exists 0. eexists. split.
      * rewrite (main_counts size_bits argv arg initial_world _ Harg eq_refl)
          by lia. reflexivity.
      * right. exists (counter_create ∅).1.
        exists (repeat (EvIncr (counter_create ∅).1 Success)
                  (Z.to_nat (to_size_t size_bits (strtoull arg).1))
                ++ [EvGet (counter_create ∅).1
                      (to_size_t size_bits (strtoull arg).1);
                    EvPrint (decimal (to_size_t size_bits (strtoull arg).1)
                             ++ newline)]).
        split; [left; reflexivity|]. split.
        -- rewrite <- app_assoc. reflexivity.
        -- rewrite forallb_app, uses_counter_increments. reflexivity.
    + exists (-1). eexists. split.
      * rewrite (main_overflows size_bits argv arg initial_world Harg) by lia.
        reflexivity.
      * right. exists (counter_create ∅).1.
        exists (repeat (EvIncr (counter_create ∅).1 Success)
                  (Z.to_nat UINT32_MAX)
                ++ [EvIncr (counter_create ∅).1 Overflow;
                    EvPrint ("overflow" ++ newline)]).
        split; [right; reflexivity|]. split.
        -- rewrite <- app_assoc. reflexivity.
        -- rewrite forallb_app, uses_counter_increments. reflexivity.
  - apply lookup_ge_None in Harg.
    exists (-1), []. split; [|left; auto].
    rewrite main_no_argument by lia. reflexivity.
Qed.

(** C9.  For every argument that does not begin with optional white space,
    an optional sign and then a decimal digit, [strtoull] returns [0] and
    sets no error, and the driver does what it does for the argument [0]:
    it creates a counter, makes no increment, prints [0] and a newline,
    releases the counter and exits with status [0]. *)
Theorem driver_unparsable_argument (size_bits : Z) (prog arg : string) :
  ¬ begins_with_number arg →
  strtoull arg = (0, false)
  ∧ main size_bits [prog; arg] initial_world
    = main size_bits [prog; "0"%string] initial_world
  ∧ ∃ (c : handle) (t : list event),
      main size_bits [prog; arg] initial_world = Some (0, mkWorld ∅ t)
      ∧ t = [EvCreate c; EvGet c 0; EvPrint ("0" ++ newline);
             EvDestroy c Success]
      ∧ output t = ("0" ++ newline)%string.
Proof.
  intros Hno. pose proof (strtoull_no_conversion arg Hno) as Hparse.
  assert (∀ a, (strtoull a).1 = 0 →
               main size_bits [prog; a] initial_world
               = Some (0, mkWorld ∅
                            [EvCreate (counter_create ∅).1;
                             EvGet (counter_create ∅).1 0;
                             EvPrint ("0" ++ newline);
                             EvDestroy (counter_create ∅).1 Success]))
    as Hzero.
  { intros a Ha.
    rewrite (main_counts size_bits _ a initial_world 0 (lookup_argv_1 prog a)).
    - reflexivity.
    - rewrite Ha. apply to_size_t_0.
    - unfold UINT32_MAX. lia. }
  split; [exact Hparse|]. split.
  - rewrite (Hzero arg) by (rewrite Hparse; reflexivity).
    rewrite (Hzero "0"%string) by reflexivity. reflexivity.
  - exists (counter_create ∅).1. eexists.
    split; [apply Hzero; rewrite Hparse; reflexivity|].
    split; reflexivity.
Qed.

Lemma driver_unparsable_argument_witness :
  strtoull "abc" = (0, false)
  ∧ main 64 ["counter"; "abc"]%string initial_world
    = main 64 ["counter"; "0"]%string initial_world
  ∧ ∃ (c : handle) (t : list event),
      main 64 ["counter"; "abc"]%string initial_world
        = Some (0, mkWorld ∅ t)
      ∧ t = [EvCreate c; EvGet c 0; EvPrint ("0" ++ newline);
             EvDestroy c Success]
      ∧ output t = ("0" ++ newline)%string.
Proof.
  apply (driver_unparsable_argument 64 "counter" "abc").
  intros H. inversion H as [s Hs|c rest Hsp Hrest].
  - inversion Hs; discriminate.
  - discriminate.
Defined.

(** C10.  Two runs with [argc >= 2] and the same [argv[1]] are the same
    run: the same exit status, the same output, the same calls.  Neither
    [argv[0]] nor any argument after the first has an influence. *)
Theorem driver_reads_first_argument_only (size_bits : Z)
    (argv argv' : list string) :
  2 <= Z.of_nat (length argv) → 2 <= Z.of_nat (length argv') →
  nth 1 argv EmptyString = nth 1 argv' EmptyString →
  main size_bits argv initial_world = main size_bits argv' initial_world
  ∧ exit_status (main size_bits argv initial_world)
    = exit_status (main size_bits argv' initial_world)
  ∧ printed (main size_bits argv initial_world)
    = printed (main size_bits argv' initial_world).
Proof.
  intros Hargc Hargc' Harg.
  assert (main size_bits argv initial_world
          = main size_bits argv' initial_world) as Hsame.
  { unfold main.
    destruct (Z.ltb_spec (Z.of_nat (length argv)) 2); [lia|].
    destruct (Z.ltb_spec (Z.of_nat (length argv')) 2); [lia|].
    rewrite Harg. reflexivity. }
  rewrite Hsame. auto.
Qed.

Lemma driver_reads_first_argument_only_witness :
  main 64 ["counter"; "3"]%string initial_world
  = main 64 ["./a.out"; "3"; "9"; "x"]%string initial_world
  ∧ exit_status (main 64 ["counter"; "3"]%string initial_world)
    = exit_status (main 64 ["./a.out"; "3"; "9"; "x"]%string initial_world)
  ∧ printed (main 64 ["counter"; "3"]%string initial_world)
    = printed (main 64 ["./a.out"; "3"; "9"; "x"]%string initial_world).
Proof.
  apply (driver_reads_first_argument_only 64
           ["counter"; "3"]%string ["./a.out"; "3"; "9"; "x"]%string).
  - cbn. lia.
  - cbn. lia.
  - reflexivity.
Defined.

End DriverFacts.

(** * More on the driver: how the argument is read *)

Module ArgumentFacts.
Import CounterLib Libc Driver Notions Observations CounterFacts DriverFacts.

Lemma append_cons (c : ascii) (a b : string) :
  (String c a ++ b)%string = String c (a ++ b)%string.
Proof. reflexivity. Qed.

Lemma skip_space_app (ws s : string) :
  all_space ws = true → skip_space (ws ++ s) = skip_space s.
Proof.
  induction ws as [|c ws IH]; [reflexivity|].
  cbn [all_space]. intros [Hc Hws]%andb_prop.
  rewrite append_cons. cbn [skip_space]. rewrite Hc. apply IH, Hws.
Qed.

(** The digits stop where the decimal string stops when no digit follows. *)
Lemma accumulate_app (s rest : string) :
  no_leading_digit rest = true →
  ∀ (v acc : Z), positional s = Some v →
                 accumulate acc (s ++ rest) = accumulate acc s.
Proof.
  intros Hrest. induction s as [|c s IH]; intros v acc Hpos.
  - change (accumulate acc rest = acc).
    destruct rest as [|d rest]; [reflexivity|].
    cbn [no_leading_digit] in Hrest. cbn [accumulate].
    destruct (isdigit d); [discriminate | reflexivity].
  - rewrite append_cons. cbn [positional accumulate] in *.
    destruct (isdigit c); [|discriminate].
    destruct (positional s) as [v'|]; [|discriminate].
    apply (IH v'). reflexivity.
Qed.

Lemma denotes_head (s : string) (n : Z) :
  denotes s n → ∃ c rest, s = String c rest ∧ isdigit c = true.
Proof.
  intros [Hne Hpos]. destruct s as [|c rest]; [contradiction|].
  exists c, rest. split; [reflexivity|].
  cbn [positional] in Hpos. destruct (isdigit c); [reflexivity | discriminate].
Qed.

(** [strtoull] on a string that starts with a digit reads its digits. *)
Lemma strtoull_from_digit (c : ascii) (rest : string) :
  isdigit c = true →
  strtoull (String c rest)
  = (if ULLONG_MAX <? accumulate 0 (String c rest) then ULLONG_MAX
     else accumulate 0 (String c rest),
     ULLONG_MAX <? accumulate 0 (String c rest)).
Proof.
  intros Hd. unfold strtoull. cbn [skip_space].
  rewrite (isdigit_not_space c Hd). cbn [skip_sign].
  destruct (isdigit_not_sign c Hd) as [-> ->]. rewrite Hd. cbn zeta.
  destruct (ULLONG_MAX <? accumulate 0 (String c rest)); reflexivity.
Qed.

Lemma strtoull_trailing (s rest : string) (n : Z) :
  denotes s n → no_leading_digit rest = true →
  strtoull (s ++ rest) = strtoull s.
Proof.
  intros Hden Hrest. destruct (denotes_head s n Hden) as (c & r & -> & Hd).
  rewrite append_cons, !strtoull_from_digit by exact Hd.
  rewrite <- append_cons.
  rewrite (accumulate_app _ rest Hrest n 0 (proj2 Hden)). reflexivity.
Qed.

Lemma strtoull_space (ws s : string) :
  all_space ws = true → strtoull (ws ++ s) = strtoull s.
Proof. intros Hws. unfold strtoull. rewrite (skip_space_app ws s Hws). reflexivity. Qed.

Lemma strtoull_plus (s : string) (n : Z) :
  denotes s n → strtoull (String "+" s) = strtoull s.
Proof.
  intros Hden. destruct (denotes_head s n Hden) as (c & r & -> & Hd).
  rewrite (strtoull_from_digit c r Hd).
  unfold strtoull. cbn [skip_space].
  change (isspace "+") with false. cbv iota. cbn [skip_sign].
  change (Ascii.eqb "+" "-") with false. change (Ascii.eqb "+" "+") with true.
  cbv iota. rewrite Hd. cbn zeta.
  destruct (ULLONG_MAX <? accumulate 0 (String c r)); reflexivity.
Qed.

Lemma strtoull_minus (s : string) (n : Z) :
  denotes s n →
  strtoull (String "-" s)
  = (if ULLONG_MAX <? n then ULLONG_MAX else (- n) mod (ULLONG_MAX + 1),
     ULLONG_MAX <? n).
Proof.
  intros Hden. destruct (denotes_head s n Hden) as (c & r & -> & Hd).
  unfold strtoull. cbn [skip_space].
  change (isspace "-") with false. cbv iota. cbn [skip_sign].
  change (Ascii.eqb "-" "-") with true. cbv iota. rewrite Hd. cbn zeta.
  rewrite (accumulate_positional _ 0 n (proj2 Hden)), Z.mul_0_l, Z.add_0_l.
  destruct (ULLONG_MAX <? n); reflexivity.
Qed.

(** The driver sees its argument through [strtoull] only. *)
Lemma main_same_parse (size_bits : Z) (prog a b : string) (w : world) :
  (strtoull a).1 = (strtoull b).1 →
  main size_bits [prog; a] w = main size_bits [prog; b] w.
Proof.
  intros Hparse.
  rewrite !(main_with_argument size_bits _ _ w (lookup_argv_1 prog _)).
  rewrite Hparse. reflexivity.
Qed.

(** What is seen of a run whose count fits the counter, and of one whose
    count does not. *)
Lemma converted_count_nonneg (size_bits : Z) (arg : string) :
  0 <= converted_count size_bits arg.
Proof. apply to_size_t_nonneg, strtoull_nonneg. Qed.

Lemma observed_counts (size_bits : Z) (argv : list string) (arg : string) :
  argv !! 1%nat = Some arg → converted_count size_bits arg <= UINT32_MAX →
  exit_status (main size_bits argv initial_world) = Some 0
  ∧ printed (main size_bits argv initial_world)
    = Some (decimal (converted_count size_bits arg) ++ newline)%string.
Proof.
  intros Harg Hfit. pose proof (converted_count_nonneg size_bits arg).
  rewrite (main_counts size_bits argv arg initial_world _ Harg eq_refl)
    by (fold (converted_count size_bits arg); lia).
  split; [reflexivity|]. cbn [printed w_trace initial_world app].
  apply (f_equal Some).
  apply output_single_print; [apply output_increments | reflexivity ..].
Qed.

Lemma observed_overflows (size_bits : Z) (argv : list string) (arg : string) :
  argv !! 1%nat = Some arg → UINT32_MAX < converted_count size_bits arg →
  exit_status (main size_bits argv initial_world) = Some (-1)
  ∧ printed (main size_bits argv initial_world)
    = Some ("overflow" ++ newline)%string.
Proof.
  intros Harg Hbig.
  rewrite (main_overflows size_bits argv arg initial_world Harg Hbig).
  split; [reflexivity|]. cbn [printed w_trace initial_world app].
  apply (f_equal Some).
  apply output_single_print; [apply output_increments | reflexivity ..].
Qed.

Lemma uint32_max_pos : 0 <= UINT32_MAX.
Proof. unfold UINT32_MAX. lia. Qed.

(** X1.  The driver does not look past the digits: text after a decimal
    argument, when it does not start with a digit, changes neither what
    [strtoull] returns nor anything the driver does. *)
Theorem driver_ignores_trailing_text (size_bits : Z) (prog s rest : string)
    (n : Z) :
  denotes s n → no_leading_digit rest = true →
  strtoull (s ++ rest) = strtoull s
  ∧ main size_bits [prog; (s ++ rest)%string] initial_world
    = main size_bits [prog; s] initial_world.
Proof.
  intros Hden Hrest. pose proof (strtoull_trailing s rest n Hden Hrest) as Hp.
  split; [exact Hp|]. apply main_same_parse. rewrite Hp. reflexivity.
Qed.

Lemma driver_ignores_trailing_text_witness :
  strtoull ("12" ++ "abc") = strtoull "12"
  ∧ main 64 ["counter"; ("12" ++ "abc")]%string initial_world
    = main 64 ["counter"; "12"]%string initial_world.
Proof.
  apply (driver_ignores_trailing_text 64 "counter" "12" "abc" 12).
  - split; [discriminate | reflexivity].
  - reflexivity.
Defined.

(** X2.  White space before the number and a plus sign are accepted and
    change nothing: the run is the run on the bare decimal string. *)
Theorem driver_skips_space_and_plus (size_bits : Z) (prog ws s : string)
    (n : Z) :
  all_space ws = true → denotes s n →
  main size_bits [prog; (ws ++ s)%string] initial_world
  = main size_bits [prog; s] initial_world
  ∧ main size_bits [prog; (ws ++ String "+" s)%string] initial_world
    = main size_bits [prog; s] initial_world.
Proof.
  intros Hws Hden. split; apply main_same_parse.
  - rewrite (strtoull_space ws s Hws). reflexivity.
  - rewrite (strtoull_space ws _ Hws), (strtoull_plus s n Hden). reflexivity.
Qed.

Lemma driver_skips_space_and_plus_witness :
  main 64 ["counter"; ("  " ++ "3")]%string initial_world
  = main 64 ["counter"; "3"]%string initial_world
  ∧ main 64 ["counter"; ("  " ++ String "+" "3")]%string initial_world
    = main 64 ["counter"; "3"]%string initial_world.
Proof.
  apply (driver_skips_space_and_plus 64 "counter" "  " "3" 3).
  - reflexivity.
  - split; [discriminate | reflexivity].
Defined.

(** X3.  A minus sign is not rejected.  Where [size_t] has 64 bits or
    more, for the argument made of [-] and a decimal string denoting [n]:
    for [n = 0] the driver prints [0] and exits with [0]; for
    [1 <= n <= ULLONG_MAX], [strtoull] negates in the unsigned type and
    returns [ULLONG_MAX + 1 - n] with no range error; for [n > ULLONG_MAX]
    it returns [ULLONG_MAX] with a range error.  The driver takes the
    overflow exit when [1 <= n <= ULLONG_MAX - UINT32_MAX] or
    [n > ULLONG_MAX], and prints [ULLONG_MAX + 1 - n] and exits with [0]
    when [ULLONG_MAX - UINT32_MAX < n <= ULLONG_MAX]. *)
Theorem driver_negative_argument (size_bits : Z) (prog s : string) (n : Z) :
  64 <= size_bits → denotes s n →
  (n = 0 →
     strtoull (String "-" s) = (0, false)
     ∧ exit_status (main size_bits [prog; String "-" s] initial_world)
       = Some 0
     ∧ printed (main size_bits [prog; String "-" s] initial_world)
       = Some ("0" ++ newline)%string)
  ∧ (1 <= n <= ULLONG_MAX →
     strtoull (String "-" s) = (ULLONG_MAX + 1 - n, false))
  ∧ (ULLONG_MAX < n → strtoull (String "-" s) = (ULLONG_MAX, true))
  ∧ (1 <= n <= ULLONG_MAX - UINT32_MAX ∨ ULLONG_MAX < n →
     exit_status (main size_bits [prog; String "-" s] initial_world)
       = Some (-1)
     ∧ printed (main size_bits [prog; String "-" s] initial_world)
       = Some ("overflow" ++ newline)%string)
  ∧ (ULLONG_MAX - UINT32_MAX < n <= ULLONG_MAX →
     exit_status (main size_bits [prog; String "-" s] initial_world)
       = Some 0
     ∧ printed (main size_bits [prog; String "-" s] initial_world)
       = Some (decimal (ULLONG_MAX + 1 - n) ++ newline)%string).
Proof.
  intros Hbits Hden. pose proof uint32_max_pos as Hpos.
  pose proof (strtoull_minus s n Hden) as Hminus.
  assert (UINT32_MAX = 4294967295) as Hu32 by reflexivity.
  assert (ULLONG_MAX = 18446744073709551615) as Hull by reflexivity.
  assert (2 ^ 64 <= 2 ^ size_bits) as Hwide by (apply Z.pow_le_mono_r; lia).
  assert (n = 0 → strtoull (String "-" s) = (0, false)) as Hzero.
  { intros ->. rewrite Hminus. reflexivity. }
  assert (1 <= n <= ULLONG_MAX →
          strtoull (String "-" s) = (ULLONG_MAX + 1 - n, false)) as Hneg.
  { intros Hn. rewrite Hminus.
    destruct (Z.ltb_spec ULLONG_MAX n); [lia|]. f_equal.
    replace (- n) with (ULLONG_MAX + 1 - n + (-1) * (ULLONG_MAX + 1)) by ring.
    rewrite Z_mod_plus_full. apply Z.mod_small. lia. }
  assert (ULLONG_MAX < n → strtoull (String "-" s) = (ULLONG_MAX, true))
    as Hsat.
  { intros Hn. rewrite Hminus.
    destruct (Z.ltb_spec ULLONG_MAX n); [reflexivity | lia]. }
  assert (∀ x flag, strtoull (String "-" s) = (x, flag) →
                    0 <= x <= ULLONG_MAX →
                    converted_count size_bits (String "-" s) = x) as Hcount.
  { intros x flag Hparse Hx. unfold converted_count. rewrite Hparse. cbn [fst].
    apply to_size_t_fits. lia. }
  split; [|split; [exact Hneg|split; [exact Hsat|split]]].
  - intros Hn. split; [exact (Hzero Hn)|].
    pose proof (Hcount 0 false (Hzero Hn) ltac:(lia)) as Hc.
    destruct (observed_counts size_bits _ _ (lookup_argv_1 prog _)
                ltac:(rewrite Hc; exact Hpos)) as [Hs Hp].
    rewrite Hc in Hp. split; assumption.
  - intros Hn.
    apply (observed_overflows size_bits _ _ (lookup_argv_1 prog _)).
    destruct Hn as [Hn|Hn].
    + rewrite (Hcount _ false (Hneg ltac:(lia))); lia.
    + rewrite (Hcount _ true (Hsat Hn)); lia.
  - intros Hn.
    pose proof (Hcount _ false (Hneg ltac:(lia)) ltac:(lia)) as Hc.
    destruct (observed_counts size_bits _ _ (lookup_argv_1 prog _)
                ltac:(rewrite Hc; lia)) as [Hs Hp].
    rewrite Hc in Hp. split; assumption.
Qed.

Lemma driver_negative_argument_witness :
  strtoull (String "-" "1") = (ULLONG_MAX + 1 - 1, false)
  ∧ exit_status (main 64 ["counter"; String "-" "1"]%string initial_world)
    = Some (-1)
  ∧ printed (main 64 ["counter"; String "-" "1"]%string initial_world)
    = Some ("overflow" ++ newline)%string.
Proof.
  assert (denotes "1" 1) as Hden by (split; [discriminate | reflexivity]).
  destruct (driver_negative_argument 64 "counter" "1" 1 ltac:(lia) Hden)
    as (_ & Hneg & _ & Hover & _).
  split.
  - apply Hneg. unfold ULLONG_MAX. lia.
  - apply Hover. left. unfold UINT32_MAX, ULLONG_MAX. lia.
Defined.

(** X4.  A decimal argument above [ULLONG_MAX] makes [strtoull] return
    [ULLONG_MAX] with a range error; the driver does not look at the error
    and runs as on the argument [18446744073709551615]. *)
Theorem driver_saturated_argument (size_bits : Z) (prog s : string) (n : Z) :
  denotes s n → ULLONG_MAX < n →
  strtoull s = (ULLONG_MAX, true)
  ∧ main size_bits [prog; s] initial_world
    = main size_bits [prog; "18446744073709551615"%string] initial_world.
Proof.
  intros Hden Hn.
  assert (strtoull s = (ULLONG_MAX, true)) as Hparse.
  { rewrite (strtoull_decimal s n Hden).
    destruct (Z.ltb_spec ULLONG_MAX n); [reflexivity | lia]. }
  split; [exact Hparse|]. apply main_same_parse. rewrite Hparse. reflexivity.
Qed.

Lemma driver_saturated_argument_witness :
  strtoull "18446744073709551616" = (ULLONG_MAX, true)
  ∧ main 64 ["counter"; "18446744073709551616"]%string initial_world
    = main 64 ["counter"; "18446744073709551615"]%string initial_world.
Proof.
  apply (driver_saturated_argument 64 "counter" "18446744073709551616"
           18446744073709551616).
  - split; [discriminate | reflexivity].
  - unfold ULLONG_MAX. lia.
Defined.

End ArgumentFacts.

(** * More on the driver: the loop and the run as a whole *)

Module RunFacts.
Import CounterLib Libc Driver Notions Observations.
Import CounterFacts DriverFacts ArgumentFacts.

Lemma count_incr_app (t1 t2 : list event) :
  count_incr (t1 ++ t2) = (count_incr t1 + count_incr t2)%nat.
Proof.
  induction t1 as [|e t1 IH]; [reflexivity|].
  destruct e; cbn [count_incr app]; rewrite IH; reflexivity.
Qed.

Lemma count_incr_repeat (c : handle) (s : signal) (k : nat) :
  count_incr (repeat (EvIncr c s) k) = k.
Proof. induction k as [|k IH]; [reflexivity|]. cbn [repeat count_incr]. rewrite IH. reflexivity. Qed.

Lemma only_on_repeat (c : handle) (e : event) (k : nat) :
  only_on c e = true → forallb (only_on c) (repeat e k) = true.
Proof.
  intros He. induction k as [|k IH]; [reflexivity|].
  cbn [repeat forallb]. rewrite He, IH. reflexivity.
Qed.

Lemma only_on_call (c : handle) (e : event) :
  event_handle e = Some c → only_on c e = true.
Proof. intros He. unfold only_on. rewrite He. apply Pos.eqb_refl. Qed.

Lemma only_on_run (c : handle) (k : nat) (a : event) (text : string) :
  event_handle a = Some c →
  forallb (only_on c)
    (EvCreate c :: repeat (EvIncr c Success) k
       ++ [a; EvPrint text; EvDestroy c Success]) = true.
Proof.
  intros Ha. cbn [forallb]. rewrite forallb_app. cbn [forallb].
  rewrite only_on_repeat by (apply only_on_call; reflexivity).
  rewrite (only_on_call c a Ha).
  rewrite (only_on_call c (EvCreate c) eq_refl).
  rewrite (only_on_call c (EvDestroy c Success) eq_refl).
  reflexivity.
Qed.

(** X5.  The [for] loop from any index [i] and any counter value [v]: when the
    iterations left fit the room left in the counter the loop makes them
    all and runs to its end (none at all when [n <= i]); otherwise it makes
    the [UINT32_MAX - v] increments that fit, gets an overflow from the
    next one and returns [-1] after printing and releasing the counter. *)
Theorem loop_outcome (c : handle) (n i : Z) (w : world) (v : Z) :
  w_store w !! c = Some (mkCounter v) → 0 <= v <= UINT32_MAX →
  loop c n i w
  = if n - i <=? UINT32_MAX - v
    then Some (None,
               mkWorld (<[c := mkCounter (v + Z.max 0 (n - i))]> (w_store w))
                 (w_trace w
                    ++ repeat (EvIncr c Success) (Z.to_nat (n - i))))
    else Some (Some (-1),
               mkWorld (delete c (w_store w))
                 (w_trace w
                    ++ repeat (EvIncr c Success) (Z.to_nat (UINT32_MAX - v))
                    ++ [EvIncr c Overflow; EvPrint ("overflow" ++ newline);
                        EvDestroy c Success])).
Proof.
  intros Hc Hv. destruct (Z.leb_spec (n - i) (UINT32_MAX - v)) as [Hfit|Hbig].
  - destruct (Z_le_gt_dec n i) as [Hdone|Hmore].
    + rewrite loop_unfold. destruct (Z_lt_dec i n); [lia|].
      rewrite Z.max_l, Z.add_0_r, (insert_id _ _ _ Hc) by lia.
      rewrite Z2Nat.nonpos by lia. cbn [repeat]. rewrite app_nil_r.
      destruct w; reflexivity.
    + rewrite (loop_succeeds (Z.to_nat (n - i)) c n i w v Hc) by lia.
      rewrite Z.max_r, Z2Nat.id by lia. reflexivity.
  - apply (loop_overflows (Z.to_nat (UINT32_MAX - v)) c n i w v Hc); lia.
Qed.

Lemma loop_outcome_witness :
  loop 1%positive 5 2 (mkWorld {[ 1%positive := mkCounter 7 ]} [])
  = if 5 - 2 <=? UINT32_MAX - 7
    then Some (None,
               mkWorld (<[1%positive := mkCounter (7 + Z.max 0 (5 - 2))]>
                          {[ 1%positive := mkCounter 7 ]})
                 ([] ++ repeat (EvIncr 1%positive Success) (Z.to_nat (5 - 2))))
    else Some (Some (-1),
               mkWorld (delete 1%positive {[ 1%positive := mkCounter 7 ]})
                 ([] ++ repeat (EvIncr 1%positive Success)
                          (Z.to_nat (UINT32_MAX - 7))
                    ++ [EvIncr 1%positive Overflow;
                        EvPrint ("overflow" ++ newline);
                        EvDestroy 1%positive Success])).
Proof.
  assert (0 <= 7 <= UINT32_MAX) as Hv by (unfold UINT32_MAX; lia).
  pose proof (loop_outcome 1%positive 5 2
                (mkWorld {[ 1%positive := mkCounter 7 ]} []) 7
                eq_refl Hv) as H.
  cbn [w_store w_trace] in H. exact H.
Defined.

(** X6.  The exit status and the output of every run are those of [summary]:
    without an argument [-1] and no output; with one, [0] and the converted
    count in decimal when that count is at most [UINT32_MAX], and [-1] and
    the text [overflow] when it is larger.  No run is undefined. *)
Theorem driver_summary (size_bits : Z) (argv : list string) :
  exit_status (main size_bits argv initial_world)
  = Some (summary size_bits argv).1
  ∧ printed (main size_bits argv initial_world)
    = Some (summary size_bits argv).2.
Proof.
  unfold summary. destruct (argv !! 1%nat) as [arg|] eqn:Harg.
  - destruct (Z.leb_spec (converted_count size_bits arg) UINT32_MAX).
    + apply (observed_counts size_bits argv arg Harg). assumption.
    + apply (observed_overflows size_bits argv arg Harg). assumption.
  - apply lookup_ge_None in Harg.
    rewrite main_no_argument by lia. split; reflexivity.
Qed.

(** X7.  The number of [counter_incr] calls of a run is the converted count,
    and never more than [UINT32_MAX + 1] however large the count is. *)
Theorem driver_increment_calls (size_bits : Z) (argv : list string)
    (arg : string) :
  argv !! 1%nat = Some arg →
  ∃ (rc : Z) (w' : world),
    main size_bits argv initial_world = Some (rc, w')
    ∧ Z.of_nat (count_incr (w_trace w'))
      = Z.min (converted_count size_bits arg) (UINT32_MAX + 1).
Proof.
  intros Harg. pose proof (converted_count_nonneg size_bits arg) as Hpos.
  pose proof uint32_max_pos as Hmax.
  destruct (Z_le_gt_dec (converted_count size_bits arg) UINT32_MAX)
    as [Hfit|Hbig].
  - eexists. eexists. split.
    + apply (main_counts size_bits argv arg initial_world _ Harg eq_refl).
      fold (converted_count size_bits arg). lia.
    + cbn [w_trace initial_world app count_incr].
      rewrite count_incr_app, count_incr_repeat. cbn [count_incr].
      fold (converted_count size_bits arg). lia.
  - assert (UINT32_MAX < to_size_t size_bits (strtoull arg).1) as Hbig'
      by (fold (converted_count size_bits arg); lia).
    pose proof (main_overflows size_bits argv arg initial_world Harg Hbig')
      as Hrun.
    pose proof (Z2Nat.id UINT32_MAX Hmax) as Hk.
    revert Hk Hrun. generalize (Z.to_nat UINT32_MAX). intros k Hk Hrun.
    eexists. eexists. split; [exact Hrun|].
    cbn [w_trace initial_world app count_incr].
    rewrite count_incr_app, count_incr_repeat. cbn [count_incr]. lia.
Qed.

Lemma driver_increment_calls_witness :
  ∃ (rc : Z) (w' : world),
    main 64 ["counter"; "3"]%string initial_world = Some (rc, w')
    ∧ Z.of_nat (count_incr (w_trace w'))
      = Z.min (converted_count 64 "3") (UINT32_MAX + 1).
Proof.
  apply (driver_increment_calls 64 ["counter"; "3"]%string "3").
  reflexivity.
Defined.

(** X8.  Where [size_t] has 32 bits or fewer the count is the parsed value
    reduced modulo [2 ^ size_bits]; it always fits the counter, so with an
    argument the driver never takes the overflow exit: it prints the
    reduced count and exits with [0]. *)
Theorem driver_with_narrow_size_t (size_bits : Z) (argv : list string)
    (arg : string) :
  0 <= size_bits <= 32 → argv !! 1%nat = Some arg →
  exit_status (main size_bits argv initial_world) = Some 0
  ∧ printed (main size_bits argv initial_world)
    = Some (decimal ((strtoull arg).1 mod 2 ^ size_bits) ++ newline)%string.
Proof.
  intros Hbits Harg. apply (observed_counts size_bits argv arg Harg).
  unfold converted_count, to_size_t.
  assert (0 < 2 ^ size_bits) by (apply Z.pow_pos_nonneg; lia).
  assert (2 ^ size_bits <= 2 ^ 32) by (apply Z.pow_le_mono_r; lia).
  pose proof (Z.mod_pos_bound (strtoull arg).1 (2 ^ size_bits) ltac:(lia)).
  unfold UINT32_MAX. lia.
Qed.

Lemma driver_with_narrow_size_t_witness :
  exit_status (main 32 ["counter"; "4294967299"]%string initial_world)
    = Some 0
  ∧ printed (main 32 ["counter"; "4294967299"]%string initial_world)
    = Some (decimal ((strtoull "4294967299").1 mod 2 ^ 32) ++ newline)%string.
Proof.
  apply (driver_with_narrow_size_t 32 ["counter"; "4294967299"]%string
           "4294967299").
  - lia.
  - reflexivity.
Defined.

(** X9.  From any state of the process the run is defined and works on its own
    counter only: the handle it gets was not live before, every library call
    of the run is on that handle, and at the exit the store is the one the
    run started from, with the trace extended and never rewritten. *)
Theorem driver_keeps_other_counters (size_bits : Z) (argv : list string)
    (w : world) :
  ∃ (rc : Z) (t : list event),
    main size_bits argv w = Some (rc, mkWorld (w_store w) (w_trace w ++ t))
    ∧ w_store w !! (counter_create (w_store w)).1 = None
    ∧ forallb (only_on (counter_create (w_store w)).1) t = true.
Proof.
  assert (w_store w !! (counter_create (w_store w)).1 = None) as Hfresh
    by apply not_elem_of_dom, is_fresh.
  destruct (argv !! 1%nat) as [arg|] eqn:Harg.
  - pose proof (converted_count_nonneg size_bits arg) as Hpos.
    unfold converted_count in Hpos.
    destruct (Z_le_gt_dec (to_size_t size_bits (strtoull arg).1) UINT32_MAX)
      as [Hfit|Hbig].
    + eexists. eexists. split; [|split; [exact Hfresh|]].
      * apply (main_counts size_bits argv arg w _ Harg eq_refl). lia.
      * apply only_on_run. reflexivity.
    + pose proof (main_overflows size_bits argv arg w Harg ltac:(lia))
        as Hrun.
      revert Hrun. generalize (Z.to_nat UINT32_MAX). intros k Hrun.
      eexists. eexists. split; [exact Hrun|split; [exact Hfresh|]].
      apply only_on_run. reflexivity.
  - apply lookup_ge_None in Harg. exists (-1), [].
    split; [|split; [exact Hfresh | reflexivity]].
    rewrite main_no_argument, app_nil_r by lia. destruct w; reflexivity.
Qed.

(** X10.  The line the driver prints on a successful run is itself an argument
    on which the driver prints the same line and succeeds again, where
    [size_t] has 32 bits or more: the printed number is read back, the
    newline after it is ignored. *)
Theorem driver_output_as_argument (size_bits : Z) (prog prog' arg p : string) :
  32 <= size_bits →
  exit_status (main size_bits [prog; arg] initial_world) = Some 0 →
  printed (main size_bits [prog; arg] initial_world) = Some p →
  exit_status (main size_bits [prog'; p] initial_world) = Some 0
  ∧ printed (main size_bits [prog'; p] initial_world) = Some p.
Proof.
  intros Hbits Hstatus Hprinted.
  pose proof (converted_count_nonneg size_bits arg) as Hpos.
  destruct (Z_le_gt_dec (converted_count size_bits arg) UINT32_MAX)
    as [Hfit|Hbig].
  - destruct (observed_counts size_bits _ arg (lookup_argv_1 prog arg) Hfit)
      as [_ Hp].
    rewrite Hp in Hprinted. injection Hprinted as <-.
    pose proof (decimal_denotes _ Hpos) as Hden.
    assert (converted_count size_bits
              (decimal (converted_count size_bits arg) ++ newline)
            = converted_count size_bits arg) as Hback.
    { unfold converted_count at 1.
      rewrite (strtoull_trailing _ newline _ Hden eq_refl).
      rewrite (strtoull_decimal _ _ Hden). cbn [fst].
      assert (2 ^ 32 <= 2 ^ size_bits) by (apply Z.pow_le_mono_r; lia).
      unfold UINT32_MAX, ULLONG_MAX in *.
      destruct (Z.ltb_spec 18446744073709551615
                  (converted_count size_bits arg)); [lia|].
      apply to_size_t_fits. lia. }
    destruct (observed_counts size_bits _ _ (lookup_argv_1 prog' _)
                ltac:(rewrite Hback; exact Hfit)) as [Hs' Hp'].
    rewrite Hback in Hp'. split; assumption.
  - destruct (observed_overflows size_bits _ arg (lookup_argv_1 prog arg))
      as [Hs _]; [lia|].
    rewrite Hs in Hstatus. discriminate.
Qed.

Lemma driver_output_as_argument_witness :
  exit_status (main 64 ["./a.out"; ("7" ++ newline)]%string initial_world)
    = Some 0
  ∧ printed (main 64 ["./a.out"; ("7" ++ newline)]%string initial_world)
    = Some ("7" ++ newline)%string.
Proof.
  apply (driver_output_as_argument 64 "counter" "./a.out" " 7x"
           ("7" ++ newline)).
  - lia.
  - vm_compute. reflexivity.
  - vm_compute. reflexivity.
Defined.

End RunFacts.
